(** * require-esm-in-cjs: the synchronous bridge [main] of src/index.js

    The package exports one function,

<<
    function main(uri){
        let mod;
        import(uri)
            .then(res => mod = res.default)
            .catch(err => console.error(mod = err))
        while (!mod) deasync.sleep(100);
        return mod
        }
>>

    The development embeds the JavaScript values the function handles, the
    single-threaded host (clock, activation frames holding each call's [mod]
    binding, the queue of pending completions, the observable trace) and the
    function itself, and then proves what the function does. The function is
    embedded twice: first for modules whose "default" member is not a
    thenable that rejects, then, in [Adopt], for every module, with the
    adoption of a thenable "default" member by the promise that [then]
    returns. [adopt_main_plain] shows that the two agree where no thenable
    rejects. *)

From stdpp Require Import gmap strings list relations.

Set Warnings "-register-all".
Open Scope string_scope.
Open Scope list_scope.
Open Scope nat_scope.

(** ** JavaScript values *)

Module Js.

(** Numbers are kept as integers plus [NaN]; objects are finite maps from
    property names to values. *)
Inductive value :=
  | VUndefined
  | VNull
  | VBool (b : bool)
  | VNumber (z : Z)
  | VNaN
  | VString (s : string)
  | VObject (props : gmap string value).

(** ECMAScript [ToBoolean], the test behind [!mod]. *)
Definition to_boolean (v : value) : bool :=
  match v with
  | VUndefined | VNull | VNaN => false
  | VBool b => b
  | VNumber z => negb (Z.eqb z 0)
  | VString s => negb (String.eqb s "")
  | VObject _ => true
  end.

(** How an evaluation ends: normally with a value, or abruptly by a throw. *)
Inductive completion :=
  | Return (v : value)
  | Throw (v : value).

Definition type_error : value :=
  VObject {[ "name" := VString "TypeError" ]}.

(** Property read [v.key]: reading from [undefined] or [null] throws, a
    missing own property reads as [undefined]. *)
Definition get_prop (v : value) (key : string) : completion :=
  match v with
  | VUndefined | VNull => Throw type_error
  | VObject props => Return (default VUndefined (props !! key))
  | _ => Return VUndefined
  end.

End Js.
Import Js.

(** ** The host: promises, the task queue and the clock *)

(** A settled promise. *)
Inductive settlement :=
  | Fulfilled (v : value)
  | Rejected (reason : value).

(** What a queued completion does when the event loop reaches it: the import
    started by the activation [frame] settles and its reactions run, or some
    unrelated piece of asynchronous work of the process, named [id], completes. *)
Inductive action :=
  | Settle (frame : nat) (s : settlement)
  | Foreign (id : nat).

Record task := Task { due : nat; act : action }.

(** Observable events, in the order they happen. *)
Inductive event :=
  | EvAssign (frame : nat) (v : value)
  | EvConsoleError (v : value)
  | EvForeign (id : nat).

(** [frames !! f] is the binding [mod] of the activation [f] of [main]; the
    closures passed to [then] and [catch] capture that binding. *)
Record process := Process {
  clock : nat;
  frames : list value;
  queue : list task;
  trace : list event
}.

Definition init : process := Process 0 [] [] [].

Definition read (f : nat) (p : process) : value :=
  default VUndefined (frames p !! f).

Definition log (e : event) (p : process) : process :=
  Process (clock p) (frames p) (queue p) (trace p ++ [e]).

(** The assignment [mod = v] inside a closure of activation [f]. The closure
    keeps its binding alive, so [f] is in range whenever this runs (see [wf]
    below). *)
Definition assign (f : nat) (v : value) (p : process) : process :=
  log (EvAssign f v) (Process (clock p) (<[f := v]> (frames p)) (queue p) (trace p)).

Definition console_error (v : value) (p : process) : process :=
  log (EvConsoleError v) p.

(** Timers fire in the order of their due time, first come first served. *)
Fixpoint schedule (t : task) (q : list task) : list task :=
  match q with
  | [] => [t]
  | u :: q' => if decide (due u ≤ due t) then u :: schedule t q' else t :: u :: q'
  end.

(** The asynchronous loader behind [import(uri)], as seen from outside: after
    [delay] milliseconds the module namespace object arrives, or the load
    fails with an error, or nothing ever happens. *)
Inductive outcome :=
  | Resolves (delay : nat) (ns : gmap string value)
  | Rejects (delay : nat) (err : value)
  | Never.

Definition loader := string → outcome.

(** ** The reactions of [main] *)

(** [res => mod = res.default], for a "default" member that is not a
    thenable that rejects; [Adopt.on_fulfilled] below covers the others. *)
Definition on_fulfilled (f : nat) (res : value) (p : process) : settlement * process :=
  match get_prop res "default" with
  | Return v => (Fulfilled v, assign f v p)
  | Throw e => (Rejected e, p)
  end.

(** [err => console.error(mod = err)] *)
Definition on_rejected (f : nat) (err : value) (p : process) : settlement * process :=
  (Fulfilled VUndefined, console_error err (assign f err p)).

(** [promise.then(h)]: [h] runs on fulfilment, a rejection passes through. *)
Definition promise_then (h : value → process → settlement * process)
    (s : settlement) (p : process) : settlement * process :=
  match s with
  | Fulfilled v => h v p
  | Rejected e => (Rejected e, p)
  end.

(** [promise.catch(h)]: [h] runs on rejection, a fulfilment passes through. *)
Definition promise_catch (h : value → process → settlement * process)
    (s : settlement) (p : process) : settlement * process :=
  match s with
  | Fulfilled v => (Fulfilled v, p)
  | Rejected e => h e p
  end.

(** The chain [import(uri).then(...).catch(...)] once the import settled. *)
Definition settle (f : nat) (s : settlement) (p : process) : settlement * process :=
  let '(s1, p1) := promise_then (on_fulfilled f) s p in
  promise_catch (on_rejected f) s1 p1.

Definition run_task (t : task) (p : process) : process :=
  match act t with
  | Settle f s => (settle f s p).2
  | Foreign id => log (EvForeign id) p
  end.

Definition run_tasks (ts : list task) (p : process) : process :=
  foldl (λ q t, run_task t q) p ts.

(** Modelled from the spec: the cooperative-yield primitive [deasync.sleep]
    (a third-party collaborator, not part of this repository). It suspends the
    calling flow for [ms] milliseconds while the event loop keeps turning:
    every queued completion that falls due within the interval runs, in
    queue order; the others stay queued. The sleep is taken to last exactly
    [ms] and the work it runs to take no time, where the primitive promises
    only approximately that duration: counts of turns below are counts on
    this idealised clock. *)
Definition sleep (ms : nat) (p : process) : process :=
  let now := clock p + ms in
  run_tasks (filter (λ t, due t ≤ now) (queue p))
            (Process now (frames p) (filter (λ t, now < due t) (queue p)) (trace p)).

(** ** The function [main] *)

(** [let mod;] a fresh binding, initially [undefined]. *)
Definition enter (p : process) : nat * process :=
  (length (frames p),
   Process (clock p) (frames p ++ [VUndefined]) (queue p) (trace p)).

(** Modelled from the spec: the host's dynamic [import(uri)]. The call returns
    at once; the reactions attached by [main] run when the load settles. *)
Definition import_ (env : loader) (uri : string) (f : nat) (p : process) : process :=
  match env uri with
  | Resolves d ns =>
      Process (clock p) (frames p)
              (schedule (Task (clock p + d) (Settle f (Fulfilled (VObject ns)))) (queue p))
              (trace p)
  | Rejects d e =>
      Process (clock p) (frames p)
              (schedule (Task (clock p + d) (Settle f (Rejected e))) (queue p))
              (trace p)
  | Never => p
  end.

Definition poll_interval : nat := 100.

(** [while (!mod) deasync.sleep(100);] with a bound on the iterations:
    [None] means the loop is still running when the bound is used up. *)
Fixpoint poll (fuel : nat) (f : nat) (p : process) : option process :=
  match fuel with
  | 0 => None
  | S n =>
      if to_boolean (read f p) then Some p
      else poll n f (sleep poll_interval p)
  end.

(** The state in which the loop is entered. *)
Definition start (env : loader) (uri : string) (p : process) : nat * process :=
  let '(f, p1) := enter p in (f, import_ env uri f p1).

Definition main (fuel : nat) (env : loader) (uri : string) (p : process)
    : option (completion * process) :=
  let '(f, p2) := start env uri p in
  match poll fuel f p2 with
  | Some p3 => Some (Return (read f p3), p3)
  | None => None
  end.

(** What the caller sees of a call. *)
Definition result (r : option (completion * process)) : option completion :=
  fst <$> r.


(** One turn of the polling loop, as a transition. *)
Inductive loop_step (f : nat) : process → process → Prop :=
  | loop_sleep p :
      to_boolean (read f p) = false →
      loop_step f p (sleep poll_interval p).

(** ** Views of the state used in the statements *)

(** The values written so far to the binding [mod] of activation [f]. *)
Fixpoint writes (f : nat) (tr : list event) : list value :=
  match tr with
  | [] => []
  | EvAssign g v :: tr' => if decide (g = f) then v :: writes f tr' else writes f tr'
  | _ :: tr' => writes f tr'
  end.

(** The value a settlement leaves in the slot. *)
Definition slot_value (s : settlement) : value :=
  match s with
  | Fulfilled res =>
      match get_prop res "default" with
      | Return v => v
      | Throw e => e
      end
  | Rejected e => e
  end.

(** ** Views of the process used in the proofs *)

(** The completion [t] belongs to activation [f]. *)
Definition targets (f : nat) (t : task) : Prop :=
  match act t with
  | Settle g _ => g = f
  | Foreign _ => False
  end.

#[global] Instance targets_dec f t : Decision (targets f t).
Proof. unfold targets. destruct (act t); apply _. Defined.

(** The events a completion appends to the trace when it runs. *)
Definition emits (t : task) : list event :=
  match act t with
  | Settle f (Fulfilled res) =>
      match get_prop res "default" with
      | Return v => [EvAssign f v]
      | Throw e => [EvAssign f e; EvConsoleError e]
      end
  | Settle f (Rejected e) => [EvAssign f e; EvConsoleError e]
  | Foreign id => [EvForeign id]
  end.

(** What activation [f] can see of the process: its binding and the history
    of writes to it. *)
Definition view (f : nat) (p : process) : value * list value :=
  (read f p, writes f (trace p)).

Definition step_view (f : nat) (x : value * list value) (t : task) : value * list value :=
  match act t with
  | Settle g s =>
      if decide (g = f) then (slot_value s, x.2 ++ [slot_value s]) else x
  | Foreign _ => x
  end.

(** Activation [f] exists, [ts] are its queued completions and [x] its view. *)
Definition own (f : nat) (ts : list task) (x : value * list value) (p : process) : Prop :=
  f < length (frames p) ∧ filter (targets f) (queue p) = ts ∧ view f p = x.

Definition task_ok (n : nat) (t : task) : Prop :=
  ∀ g s, act t = Settle g s → g < n.

Definition event_ok (n : nat) (e : event) : Prop :=
  ∀ g v, e = EvAssign g v → g < n.

(** Every queued reaction and every recorded write belongs to an activation
    that exists. *)
Definition wf (p : process) : Prop :=
  Forall (task_ok (length (frames p))) (queue p) ∧
  Forall (event_ok (length (frames p))) (trace p).

(** The settlement the loader holds for an identifier, if any. *)
Definition settlement_of (o : outcome) : option (nat * settlement) :=
  match o with
  | Resolves d ns => Some (d, Fulfilled (VObject ns))
  | Rejects d e => Some (d, Rejected e)
  | Never => None
  end.

(** The completions [main] has queued for itself when it enters the loop. *)
Definition own_tasks (o : outcome) (f c : nat) : list task :=
  match settlement_of o with
  | Some (d, s) => [Task (c + d) (Settle f s)]
  | None => []
  end.

(** The completion [t] has run, or it is queued for a later time. *)
Definition served (t : task) (p : process) : Prop :=
  (∀ e, e ∈ emits t → e ∈ trace p) ∨ (t ∈ queue p ∧ clock p < due t).

(** Where the activation stands: still waiting with nothing written, or
    settled with the one value the settlement left. *)
Definition phase (o : outcome) (f c : nat) (p : process) : Prop :=
  own f (own_tasks o f c) (VUndefined, []) p ∨
  ∃ d s, settlement_of o = Some (d, s) ∧
         own f [] (slot_value s, [slot_value s]) p.

(** ** Default exports that are thenables

    The promise returned by [then] is resolved with what its reaction
    returns, here the value of [mod = res.default]. When that value is a
    thenable the promise adopts it, and a rejection of the thenable travels
    on to the reaction of [catch]. The definitions above cover the modules
    whose "default" member is not a thenable that rejects; the module
    [Adopt] covers every module. Values stay data: what a value does when a
    promise is resolved with it is looked up in a table, as the [then]
    method of an object is looked up in the heap. *)

Module Adopt.

(** What happens when a promise is resolved with a value: it is taken as it
    is, or it is a thenable that calls back with success, or with a failure
    [delay] milliseconds after its adoption, or not at all. *)
Inductive fate :=
  | NotThenable
  | Fulfils
  | RejectsAfter (delay : nat) (reason : value)
  | StaysPending.

(** Only objects can carry a [then] method. *)
Definition fate_of (th : value → fate) (v : value) : fate :=
  match v with
  | VObject _ => th v
  | _ => NotThenable
  end.

(** The state of a promise once its reaction has run: settled, or following
    a thenable that will reject, or following one that never makes a
    reaction of [main] run. *)
Inductive resolution :=
  | Settled (s : settlement)
  | Adopted (delay : nat) (reason : value)
  | Unobserved.

Definition resolve (th : value → fate) (v : value) : resolution :=
  match fate_of th v with
  | NotThenable => Settled (Fulfilled v)
  | RejectsAfter d e => Adopted d e
  | Fulfils | StaysPending => Unobserved
  end.

(** [res => mod = res.default]; the promise returned by [then] is resolved
    with the value assigned. *)
Definition on_fulfilled (th : value → fate) (f : nat) (res : value) (p : process)
    : resolution * process :=
  match get_prop res "default" with
  | Return v => (resolve th v, assign f v p)
  | Throw e => (Settled (Rejected e), p)
  end.

(** [promise.then(h)] *)
Definition promise_then (h : value → process → resolution * process)
    (s : settlement) (p : process) : resolution * process :=
  match s with
  | Fulfilled v => h v p
  | Rejected e => (Settled (Rejected e), p)
  end.

(** [promise.catch(h)] on the promise returned by [then], at time [T]: [h]
    runs at once on a rejection, also on that of an adopted thenable that has
    already rejected; for a thenable that rejects later the run of [h] is
    queued for that time, as the rejection of activation [f]'s chain. *)
Definition promise_catch (h : value → process → settlement * process)
    (f T : nat) (r : resolution) (p : process) : option task * process :=
  match r with
  | Settled (Rejected e) => (None, (h e p).2)
  | Adopted 0 e => (None, (h e p).2)
  | Adopted (S d) e => (Some (Task (T + S d) (Settle f (Rejected e))), p)
  | Settled (Fulfilled _) | Unobserved => (None, p)
  end.

(** The chain [import(uri).then(...).catch(...)] once the import settled, at
    time [T]. *)
Definition settle (th : value → fate) (f T : nat) (s : settlement) (p : process)
    : option task * process :=
  let '(r, p1) := promise_then (on_fulfilled th f) s p in
  promise_catch (on_rejected f) f T r p1.

(** Running a completion, and the completion it queues, if any. *)
Definition run_task (th : value → fate) (t : task) (p : process) : option task * process :=
  match act t with
  | Settle f s => settle th f (due t) s p
  | Foreign id => (None, log (EvForeign id) p)
  end.

(** The completions [ts] that fall due before [now] run in their order; a
    completion queued meanwhile joins [cs] when it falls due before [now] as
    well, and runs in its turn; otherwise it joins the queue. The members of
    [cs] are rejections of adopted thenables, which queue nothing. *)
Fixpoint drain (th : value → fate) (now : nat) (ts cs : list task) (p : process) : process :=
  match ts with
  | [] => run_tasks cs p
  | t :: ts' =>
      let p0 := run_tasks (filter (λ c, due c < due t) cs) p in
      let rest := filter (λ c, due t ≤ due c) cs in
      match run_task th t p0 with
      | (Some u, p1) =>
          if decide (due u ≤ now) then drain th now ts' (schedule u rest) p1
          else drain th now ts' rest
                     (Process (clock p1) (frames p1) (schedule u (queue p1)) (trace p1))
      | (None, p1) => drain th now ts' rest p1
      end
  end.

(** Modelled from the spec: [deasync.sleep], as [sleep] above, with
    completions that can queue completions. *)
Definition sleep (th : value → fate) (ms : nat) (p : process) : process :=
  let now := clock p + ms in
  drain th now (filter (λ t, due t ≤ now) (queue p)) []
        (Process now (frames p) (filter (λ t, now < due t) (queue p)) (trace p)).

(** [while (!mod) deasync.sleep(100);] *)
Fixpoint poll (th : value → fate) (fuel : nat) (f : nat) (p : process) : option process :=
  match fuel with
  | 0 => None
  | S n =>
      if to_boolean (read f p) then Some p
      else poll th n f (sleep th poll_interval p)
  end.

Definition main (th : value → fate) (fuel : nat) (env : loader) (uri : string) (p : process)
    : option (completion * process) :=
  let '(f, p2) := start env uri p in
  match poll th fuel f p2 with
  | Some p3 => Some (Return (read f p3), p3)
  | None => None
  end.

Inductive loop_step (th : value → fate) (f : nat) : process → process → Prop :=
  | loop_sleep p :
      to_boolean (read f p) = false →
      loop_step th f p (sleep th poll_interval p).

(** The reactions of the completion [t] end with its own write: it does not
    rest on a thenable that rejects. *)
Definition calm (th : value → fate) (t : task) : Prop :=
  match act t with
  | Settle _ (Fulfilled res) =>
      match get_prop res "default" with
      | Return v => ∀ d e, fate_of th v ≠ RejectsAfter d e
      | Throw _ => True
      end
  | _ => True
  end.

(** The "default" member of what the load resolves to is not a thenable that
    rejects. *)
Definition default_stays (th : value → fate) (o : outcome) : Prop :=
  match o with
  | Resolves _ ns => ∀ d e, fate_of th (default VUndefined (ns !! "default")) ≠ RejectsAfter d e
  | _ => True
  end.

(** Sample thenables: an object with a member "rejects" stands for a promise
    that has already rejected with that member, one with a member
    "rejectsLater" for a promise that rejects with it after 150 ms. *)
Definition sample_thenables : value → fate := λ v,
  match v with
  | VObject props =>
      match props !! "rejects", props !! "rejectsLater" with
      | Some e, _ => RejectsAfter 0 e
      | None, Some e => RejectsAfter 150 e
      | None, None => NotThenable
      end
  | _ => NotThenable
  end.

Definition rejected_promise : value := VObject {[ "rejects" := VString "boom" ]}.

Definition rejecting_promise : value := VObject {[ "rejectsLater" := VString "boom" ]}.

Definition thenable_env : loader := λ uri,
  if String.eqb uri "rejectedDefault" then Resolves 10 {[ "default" := rejected_promise ]}
  else if String.eqb uri "rejectingDefault" then Resolves 10 {[ "default" := rejecting_promise ]}
  else if String.eqb uri "fastMod" then Resolves 10 {[ "default" := VNumber 42 ]}
  else Never.

End Adopt.

(** The completions of activation [f] that fall due in a sleep are calm. *)
Definition calm_within (th : value → Adopt.fate) (f ms : nat) (p : process) : Prop :=
  Forall (λ t, due t ≤ clock p + ms → Adopt.calm th t) (filter (targets f) (queue p)).

(** ** Sample modules *)

Definition sample_env : loader := λ uri,
  if String.eqb uri "fastMod" then Resolves 10 {[ "default" := VNumber 42 ]}
  else if String.eqb uri "slowMod" then Resolves 250 {[ "default" := VString "slow"; "named" := VNumber 1 ]}
  else if String.eqb uri "badMod" then Rejects 5 (VString "not found")
  else if String.eqb uri "zeroMod" then Resolves 10 {[ "default" := VNumber 0 ]}
  else if String.eqb uri "emptyMod" then Resolves 10 {[ "default" := VString "" ]}
  else if String.eqb uri "namedOnly" then Resolves 10 {[ "helper" := VNumber 7 ]}
  else if String.eqb uri "quietFail" then Rejects 5 VUndefined
  else Never.

(** A process in which unrelated work is already queued, due at 30 ms. *)
Definition busy : process := Process 0 [] [Task 30 (Foreign 7)] [].

(** * Properties *)

Example fastMod_returns_42 :
  result (main 2 sample_env "fastMod" init) = Some (Return (VNumber 42)).
Proof. vm_compute. reflexivity. Qed.

Example slowMod_takes_three_sleeps :
  result (main 3 sample_env "slowMod" init) = None ∧
  result (main 4 sample_env "slowMod" init) = Some (Return (VString "slow")).
Proof. vm_compute. split; reflexivity. Qed.

Example badMod_returns_the_error :
  result (main 2 sample_env "badMod" init) = Some (Return (VString "not found")).
Proof. vm_compute. reflexivity. Qed.

Example zeroMod_still_polling :
  result (main 50 sample_env "zeroMod" init) = None.
Proof. vm_compute. reflexivity. Qed.

(** ** Running queued completions *)

Lemma writes_app f tr1 tr2 : writes f (tr1 ++ tr2) = writes f tr1 ++ writes f tr2.
Proof.
  induction tr1 as [|e tr1 IH]; simpl; [done|].
  destruct e; [case_decide|..]; simpl; by rewrite ?IH.
Qed.

Lemma read_assign f g v p :
  f < length (frames p) →
  read f (assign g v p) = if decide (g = f) then v else read f p.
Proof.
  intros Hf. unfold read, assign; simpl. case_decide as Hg.
  - subst g. by rewrite list_lookup_insert_eq.
  - by rewrite list_lookup_insert_ne.
Qed.

Lemma view_assign f g v p :
  f < length (frames p) →
  view f (assign g v p) =
    if decide (g = f) then (v, (view f p).2 ++ [v]) else view f p.
Proof.
  intros Hf. unfold view. rewrite read_assign by done.
  unfold assign, log; simpl. rewrite writes_app; simpl.
  case_decide; simpl; [done|]. by rewrite app_nil_r.
Qed.

Lemma view_console_error f v p : view f (console_error v p) = view f p.
Proof.
  unfold view, console_error, log, read; simpl.
  rewrite writes_app; simpl. by rewrite app_nil_r.
Qed.

Lemma view_log_foreign f id p : view f (log (EvForeign id) p) = view f p.
Proof.
  unfold view, log, read; simpl. rewrite writes_app; simpl. by rewrite app_nil_r.
Qed.

Lemma run_task_shape t p :
  clock (run_task t p) = clock p ∧
  queue (run_task t p) = queue p ∧
  length (frames (run_task t p)) = length (frames p) ∧
  trace (run_task t p) = trace p ++ emits t.
Proof.
  unfold run_task, emits. destruct (act t) as [f [res|e]|id]; simpl.
  - unfold settle, promise_then, on_fulfilled.
    destruct (get_prop res "default"); simpl;
      rewrite ?length_insert, <- ?app_assoc; done.
  - rewrite length_insert, <- app_assoc. done.
  - done.
Qed.

Lemma run_task_view f t p :
  f < length (frames p) →
  view f (run_task t p) = step_view f (view f p) t.
Proof.
  intros Hf. unfold run_task, step_view.
  destruct (act t) as [g [res|e]|id]; simpl.
  - unfold settle, promise_then, on_fulfilled.
    destruct (get_prop res "default"); simpl.
    + by rewrite view_assign.
    + by rewrite view_console_error, view_assign.
  - by rewrite view_console_error, view_assign.
  - apply view_log_foreign.
Qed.

Lemma run_tasks_shape ts p :
  clock (run_tasks ts p) = clock p ∧
  queue (run_tasks ts p) = queue p ∧
  length (frames (run_tasks ts p)) = length (frames p) ∧
  trace (run_tasks ts p) = trace p ++ (ts ≫= emits).
Proof.
  revert p. induction ts as [|t ts IH]; intros p; simpl.
  - by rewrite app_nil_r.
  - destruct (IH (run_task t p)) as (-> & -> & -> & ->).
    destruct (run_task_shape t p) as (-> & -> & -> & ->).
    by rewrite <- app_assoc.
Qed.

Lemma run_tasks_view f ts p :
  f < length (frames p) →
  view f (run_tasks ts p) = foldl (step_view f) (view f p) ts.
Proof.
  revert p. induction ts as [|t ts IH]; intros p Hf; simpl; [done|].
  rewrite IH, run_task_view; [done..|].
  by destruct (run_task_shape t p) as (_ & _ & -> & _).
Qed.

(** Only the completions of activation [f] change its view. *)
Lemma foldl_step_view_filter f ts x :
  foldl (step_view f) x ts = foldl (step_view f) x (filter (targets f) ts).
Proof.
  revert x. induction ts as [|t ts IH]; intros x; [done|].
  rewrite filter_cons. destruct (decide (targets f t)) as [Ht|Ht]; simpl.
  - apply IH.
  - rewrite IH. f_equal. unfold step_view, targets in *.
    destruct (act t); [|done]. by case_decide.
Qed.

Lemma filter_comm {A} (P Q : A → Prop) `{!∀ x, Decision (P x)} `{!∀ x, Decision (Q x)}
    (l : list A) :
  filter P (filter Q l) = filter Q (filter P l).
Proof.
  induction l as [|x l IH]; [done|].
  rewrite !filter_cons.
  destruct (decide (Q x)), (decide (P x)); rewrite ?filter_cons;
    repeat case_decide; try done; by rewrite IH.
Qed.

(** ** One turn of the event loop *)

Lemma sleep_shape ms p :
  clock (sleep ms p) = clock p + ms ∧
  queue (sleep ms p) = filter (λ t, clock p + ms < due t) (queue p) ∧
  length (frames (sleep ms p)) = length (frames p) ∧
  trace (sleep ms p) =
    trace p ++ (filter (λ t, due t ≤ clock p + ms) (queue p) ≫= emits).
Proof.
  unfold sleep.
  destruct (run_tasks_shape (filter (λ t, due t ≤ clock p + ms) (queue p))
              (Process (clock p + ms) (frames p)
                 (filter (λ t, clock p + ms < due t) (queue p)) (trace p)))
    as (-> & -> & -> & ->).
  done.
Qed.

Lemma sleep_clock ms p : clock (sleep ms p) = clock p + ms.
Proof. apply sleep_shape. Qed.

Lemma sleep_frames_length ms p : length (frames (sleep ms p)) = length (frames p).
Proof. apply sleep_shape. Qed.

Lemma sleep_view f ms p :
  f < length (frames p) →
  view f (sleep ms p) =
    foldl (step_view f) (view f p)
          (filter (λ t, due t ≤ clock p + ms) (filter (targets f) (queue p))).
Proof.
  intros Hf. unfold sleep. rewrite run_tasks_view by done.
  rewrite foldl_step_view_filter. by rewrite filter_comm.
Qed.

Lemma sleep_own_queue f ms p :
  filter (targets f) (queue (sleep ms p)) =
    filter (λ t, clock p + ms < due t) (filter (targets f) (queue p)).
Proof.
  destruct (sleep_shape ms p) as (_ & -> & _). apply filter_comm.
Qed.

Lemma own_read f ts v w p : own f ts (v, w) p → read f p = v.
Proof. intros (_ & _ & Hview). exact (f_equal fst Hview). Qed.

Lemma own_writes f ts v w p : own f ts (v, w) p → writes f (trace p) = w.
Proof. intros (_ & _ & Hview). exact (f_equal snd Hview). Qed.

Lemma sleep_own_idle f x ms p :
  own f [] x p → own f [] x (sleep ms p).
Proof.
  intros (Hf & Hq & Hv). split_and!.
  - by rewrite sleep_frames_length.
  - by rewrite sleep_own_queue, Hq.
  - by rewrite sleep_view, Hq, Hv.
Qed.

Lemma sleep_own_wait f t x ms p :
  own f [t] x p → clock p + ms < due t → own f [t] x (sleep ms p).
Proof.
  intros (Hf & Hq & Hv) Hlate. split_and!.
  - by rewrite sleep_frames_length.
  - rewrite sleep_own_queue, Hq, filter_cons, filter_nil. by rewrite decide_True.
  - rewrite sleep_view, Hq, Hv by done.
    rewrite filter_cons, filter_nil. rewrite decide_False by lia. done.
Qed.

Lemma sleep_own_deliver f T s v w ms p :
  own f [Task T (Settle f s)] (v, w) p → T ≤ clock p + ms →
  own f [] (slot_value s, w ++ [slot_value s]) (sleep ms p).
Proof.
  intros (Hf & Hq & Hv) Hdue. split_and!.
  - by rewrite sleep_frames_length.
  - rewrite sleep_own_queue, Hq, filter_cons, filter_nil.
    rewrite decide_False; [done | simpl; lia].
  - rewrite sleep_view, Hq, Hv by done.
    rewrite filter_cons, filter_nil. rewrite decide_True by done.
    simpl. unfold step_view; simpl. by rewrite decide_True.
Qed.

(** ** Well-formed processes *)

Lemma wf_init : wf init.
Proof. split; constructor. Qed.



Lemma Forall_filter_weak {A} (P Q : A → Prop) `{!∀ x, Decision (Q x)} (l : list A) :
  Forall P l → Forall P (filter Q l).
Proof.
  induction 1 as [|x l Hx _ IH]; [constructor|].
  rewrite filter_cons. case_decide; [by constructor | done].
Qed.


Lemma writes_fresh f tr : Forall (event_ok f) tr → writes f tr = [].
Proof.
  induction 1 as [|e tr He _ IH]; simpl; [done|].
  destruct e as [g v| |]; try done.
  case_decide; [|done]. subst g. specialize (He f v eq_refl). lia.
Qed.

Lemma filter_targets_fresh f q :
  Forall (task_ok f) q → filter (targets f) q = [].
Proof.
  induction 1 as [|t q Ht _ IH]; [done|].
  rewrite filter_cons. rewrite decide_False; [done|].
  unfold targets, task_ok in *. destruct (act t) as [g s|]; [|tauto].
  intros ->. specialize (Ht f s eq_refl). lia.
Qed.

Lemma filter_schedule_fresh {P : task → Prop} `{!∀ x, Decision (P x)} t q :
  filter P q = [] → P t → filter P (schedule t q) = [t].
Proof.
  intros Hq Ht. induction q as [|u q IH]; simpl.
  - rewrite filter_cons, decide_True by done. done.
  - rewrite filter_cons in Hq. destruct (decide (P u)); [done|].
    case_decide.
    + rewrite filter_cons, decide_False by done. auto.
    + rewrite !filter_cons, decide_True, decide_False by done. by rewrite Hq.
Qed.

Lemma elem_of_schedule t u q : u ∈ schedule t q ↔ u = t ∨ u ∈ q.
Proof.
  induction q as [|w q IH]; simpl.
  - rewrite elem_of_cons, elem_of_nil. tauto.
  - case_decide; rewrite !elem_of_cons, ?IH; tauto.
Qed.

(** ** Entering the loop *)

Lemma start_frame env uri p : (start env uri p).1 = length (frames p).
Proof. done. Qed.

Lemma start_shape env uri p :
  clock (start env uri p).2 = clock p ∧
  frames (start env uri p).2 = frames p ++ [VUndefined] ∧
  trace (start env uri p).2 = trace p ∧
  (∀ t, t ∈ queue (start env uri p).2 ↔
        t ∈ own_tasks (env uri) (length (frames p)) (clock p) ∨ t ∈ queue p).
Proof.
  unfold start, enter, import_, own_tasks; simpl.
  destruct (env uri); simpl; split_and!; try done; intros t;
    rewrite ?elem_of_schedule, ?elem_of_cons, ?elem_of_nil; tauto.
Qed.




(** On entry the binding is [undefined], nothing has been written to it, and
    the only completion that can write to it is the one just queued. *)
Lemma start_own env uri p :
  wf p →
  own (length (frames p))
      (own_tasks (env uri) (length (frames p)) (clock p))
      (VUndefined, [])
      (start env uri p).2.
Proof.
  intros [Hq Htr]. split_and!.
  - destruct (start_shape env uri p) as (_ & -> & _). rewrite length_app; simpl; lia.
  - pose proof (filter_targets_fresh _ _ Hq) as Hfresh.
    unfold start, enter, import_, own_tasks; simpl.
    destruct (env uri); simpl; try done;
      by apply filter_schedule_fresh.
  - unfold view. destruct (start_shape env uri p) as (_ & Ef & -> & _).
    rewrite (writes_fresh _ _ Htr). unfold read. rewrite Ef.
    by rewrite lookup_app_r, Nat.sub_diag.
Qed.

(** ** The polling loop *)

Lemma poll_mono n m f p p' : poll n f p = Some p' → n ≤ m → poll m f p = Some p'.
Proof.
  revert m p. induction n as [|n IH]; intros m p H Hle; [done|].
  destruct m as [|m]; [lia|]. simpl in *.
  destruct (to_boolean (read f p)); [done|]. apply IH; [done|lia].
Qed.

(** An invariant of the event loop still holds when the loop exits, and the
    loop exits only on a truthy binding. *)
Lemma poll_invariant (I : process → Prop) f :
  (∀ p, I p → I (sleep poll_interval p)) →
  ∀ fuel p p', I p → poll fuel f p = Some p' →
    I p' ∧ to_boolean (read f p') = true.
Proof.
  intros Hstep. induction fuel as [|n IH]; intros p p' HI H; [done|].
  simpl in H. destruct (to_boolean (read f p)) eqn:E.
  - by injection H as <-.
  - eapply IH; [|done]. by apply Hstep.
Qed.

(** Once the activation has nothing queued, a falsy binding stays falsy:
    the loop cannot exit. *)
Lemma poll_idle_falsy f v w fuel p :
  own f [] (v, w) p → to_boolean v = false → poll fuel f p = None.
Proof.
  intros Hown Hv. destruct (poll fuel f p) as [p'|] eqn:E; [|done].
  destruct (poll_invariant (own f [] (v, w)) f
              (λ q, sleep_own_idle f (v, w) poll_interval q) fuel p p' Hown E)
    as [(_ & _ & [= Hr _]) Ht].
  congruence.
Qed.


(** The settlement is at most [S n] sleeps away and leaves a truthy value:
    the loop exits after it, with that value in the binding. *)
Lemma poll_pending_returns f T s w n : ∀ p,
  own f [Task T (Settle f s)] (VUndefined, w) p →
  to_boolean (slot_value s) = true →
  T ≤ clock p + poll_interval * S n →
  ∃ p', poll (S (S n)) f p = Some p' ∧
        own f [] (slot_value s, w ++ [slot_value s]) p' ∧
        T ≤ clock p'.
Proof.
  induction n as [|n IH]; intros p Hown Hv HT.
  - pose proof (sleep_own_deliver _ _ _ _ _ poll_interval _ Hown ltac:(lia)) as Hd.
    exists (sleep poll_interval p). split_and!; [|done|rewrite sleep_clock; lia].
    destruct Hown as (_ & _ & [= Hr _]). destruct Hd as (_ & _ & [= Hr' _]).
    simpl. rewrite Hr; simpl. by rewrite Hr', Hv.
  - destruct (decide (T ≤ clock p + poll_interval)) as [Hnow|Hlater].
    + pose proof (sleep_own_deliver _ _ _ _ _ poll_interval _ Hown Hnow) as Hd.
      exists (sleep poll_interval p). split_and!; [|done|rewrite sleep_clock; lia].
      destruct Hown as (_ & _ & [= Hr _]). destruct Hd as (_ & _ & [= Hr' _]).
      change (poll (S (S (S n))) f p) with
        (if to_boolean (read f p) then Some p
         else poll (S (S n)) f (sleep poll_interval p)).
      rewrite Hr; simpl. by rewrite Hr', Hv.
    + pose proof (sleep_own_wait _ _ _ poll_interval _ Hown ltac:(simpl; lia)) as Hw.
      destruct (IH _ Hw Hv) as (p' & Hp & Hown' & Hc).
      { rewrite sleep_clock. unfold poll_interval in *. lia. }
      exists p'. split_and!; [|done..].
      destruct Hown as (_ & _ & [= Hr _]).
      change (poll (S (S (S n))) f p) with
        (if to_boolean (read f p) then Some p
         else poll (S (S n)) f (sleep poll_interval p)).
      by rewrite Hr.
Qed.

(** Whatever the loop returns, the completion has been delivered by then. *)
Lemma poll_pending_settled f T s w fuel p p' :
  own f [Task T (Settle f s)] (VUndefined, w) p →
  poll fuel f p = Some p' →
  own f [] (slot_value s, w ++ [slot_value s]) p' ∧ T ≤ clock p' ∧
  to_boolean (slot_value s) = true.
Proof.
  intros Hown H.
  set (I := λ q, own f [Task T (Settle f s)] (VUndefined, w) q ∨
                 (own f [] (slot_value s, w ++ [slot_value s]) q ∧ T ≤ clock q)).
  assert (Hstep : ∀ q, I q → I (sleep poll_interval q)).
  { intros q [Hq|[Hq Hc]].
    - destruct (decide (T ≤ clock q + poll_interval)) as [Hnow|Hlater].
      + right. split; [by eapply sleep_own_deliver|]. rewrite sleep_clock. lia.
      + left. apply sleep_own_wait; [done|simpl; lia].
    - right. split; [by apply sleep_own_idle|]. rewrite sleep_clock. lia. }
  destruct (poll_invariant I f Hstep fuel p p' (or_introl Hown) H)
    as [[Hq|[Hq Hc]] Ht].
  - destruct Hq as (_ & _ & [= Hr _]). by rewrite Hr in Ht.
  - split_and!; [done..|]. destruct Hq as (_ & _ & [= Hr _]). congruence.
Qed.

(** ** Progress of the other queued work *)

Lemma sleep_trace_mono ms p e : e ∈ trace p → e ∈ trace (sleep ms p).
Proof.
  intros He. destruct (sleep_shape ms p) as (_ & _ & _ & ->).
  apply elem_of_app. by left.
Qed.

Lemma sleep_runs_due ms p t e :
  t ∈ queue p → due t ≤ clock p + ms → e ∈ emits t → e ∈ trace (sleep ms p).
Proof.
  intros Ht Hdue He. destruct (sleep_shape ms p) as (_ & _ & _ & ->).
  apply elem_of_app. right. apply list_elem_of_bind. exists t. split; [done|].
  by apply list_elem_of_filter.
Qed.

Lemma sleep_keeps_late ms p t :
  t ∈ queue p → clock p + ms < due t → t ∈ queue (sleep ms p).
Proof.
  intros Ht Hlate. destruct (sleep_shape ms p) as (_ & -> & _).
  by apply list_elem_of_filter.
Qed.

Lemma served_first_sleep ms t p : t ∈ queue p → served t (sleep ms p).
Proof.
  intros Ht. destruct (decide (due t ≤ clock p + ms)) as [Hdue|Hlate].
  - left. intros e. by apply sleep_runs_due.
  - right. split; [apply sleep_keeps_late; [done|lia] | rewrite sleep_clock; lia].
Qed.

Lemma served_sleep ms t p : served t p → served t (sleep ms p).
Proof.
  intros [Hran|[Ht _]]; [|by apply served_first_sleep].
  left. intros e He. by apply sleep_trace_mono, Hran.
Qed.

Lemma served_due t p e :
  served t p → due t ≤ clock p → e ∈ emits t → e ∈ trace p.
Proof. intros [Hran|[_ Hlate]] Hdue He; [by apply Hran | lia]. Qed.

(** ** Runs of the loop as sequences of transitions *)

Lemma loop_invariant (I : process → Prop) f :
  (∀ p, I p → I (sleep poll_interval p)) →
  ∀ p p', I p → rtc (loop_step f) p p' → I p'.
Proof.
  intros Hstep p p' HI Hrun. induction Hrun as [|p q r Hpq _ IH]; [done|].
  apply IH. destruct Hpq. by apply Hstep.
Qed.

Lemma nsteps_loop_clock f n p p' :
  nsteps (loop_step f) n p p' → clock p' = clock p + poll_interval * n.
Proof.
  induction 1 as [|n p q r Hpq _ IH]; [lia|].
  destruct Hpq. rewrite IH, sleep_clock. lia.
Qed.

Lemma nsteps_loop_served f n t p p' :
  nsteps (loop_step f) (S n) p p' → t ∈ queue p → served t p'.
Proof.
  intros Hrun Ht. inversion Hrun as [|? ? q ? Hpq Hrest]; subst.
  destruct Hpq.
  apply (loop_invariant (served t) f (λ q, served_sleep poll_interval t q)
           (sleep poll_interval p)).
  - by apply served_first_sleep.
  - by eapply rtc_nsteps_2.
Qed.

(** A loop that cannot exit runs for as many turns as one cares to count. *)
Lemma loop_runs_forever f v w p :
  own f [] (v, w) p → to_boolean v = false →
  ∀ n, ∃ p', nsteps (loop_step f) n p p' ∧ own f [] (v, w) p'.
Proof.
  intros Hown Hv n. induction n as [|n (p' & Hrun & Hown')].
  - exists p. split; [constructor | done].
  - exists (sleep poll_interval p'). split; [|by apply sleep_own_idle].
    eapply nsteps_r; [done|]. constructor.
    destruct Hown' as (_ & _ & [= -> _]). done.
Qed.

(** ** The call as a whole *)

Lemma main_eq fuel env uri p :
  main fuel env uri p =
    (λ p', (Return (read (length (frames p)) p'), p')) <$>
      poll fuel (length (frames p)) (start env uri p).2.
Proof.
  unfold main, start, enter; simpl.
  by destruct (poll _ _ _).
Qed.

Lemma poll_serves fuel f t p p' :
  poll fuel f p = Some p' → to_boolean (read f p) = false →
  t ∈ queue p → served t p'.
Proof.
  destruct fuel as [|n]; [done|]. intros H Hr Ht. simpl in H. rewrite Hr in H.
  eapply (poll_invariant (served t) f (λ q, served_sleep poll_interval t q));
    [|done]. by apply served_first_sleep.
Qed.

Lemma start_read env uri p :
  wf p → read (length (frames p)) (start env uri p).2 = VUndefined.
Proof.
  intros Hwf. destruct (start_own env uri p Hwf) as (_ & _ & Hv).
  exact (f_equal fst Hv).
Qed.


(** The load settles with a truthy slot value: the call returns that value,
    after the settlement, having written its binding once. *)
Lemma main_settles_truthy env uri p d s :
  wf p → settlement_of (env uri) = Some (d, s) →
  to_boolean (slot_value s) = true →
  ∃ p', main (d / poll_interval + 2) env uri p = Some (Return (slot_value s), p') ∧
        clock p + d ≤ clock p' ∧
        own (length (frames p)) [] (slot_value s, [slot_value s]) p' ∧
        (∀ e, e ∈ emits (Task (clock p + d) (Settle (length (frames p)) s)) →
              e ∈ trace p').
Proof.
  intros Hwf Hs Hv. pose proof (start_own env uri p Hwf) as Hown.
  unfold own_tasks in Hown. rewrite Hs in Hown.
  destruct (start_shape env uri p) as (Ec & _ & _ & Eq).
  destruct (poll_pending_returns _ _ _ _ (d / poll_interval) _ Hown Hv)
    as (p' & Hp & Hown' & Hc).
  { rewrite Ec. pose proof (Nat.div_mod_eq d poll_interval) as Hd.
    pose proof (Nat.mod_upper_bound d poll_interval ltac:(done)) as Hm.
    unfold poll_interval in *. lia. }
  exists p'. rewrite main_eq. replace (d / poll_interval + 2) with (S (S (d / poll_interval))) by lia.
  rewrite Hp. pose proof Hown' as (Hf & Hq & Hview).
  assert (Hr : read (length (frames p)) p' = slot_value s) by exact (f_equal fst Hview).
  unfold fmap, option_fmap, option_map. rewrite Hr. split_and!; try done.
  - intros e He.
    apply (served_due (Task (clock p + d) (Settle (length (frames p)) s)));
      [|done..].
    eapply poll_serves; [done|by rewrite start_read|].
    apply Eq. left. unfold own_tasks. rewrite Hs. by apply list_elem_of_singleton.
Qed.

(** Conversely, a call that returns has seen its load settle. *)
Lemma main_returned_settled fuel env uri p r p' :
  wf p → main fuel env uri p = Some (r, p') →
  ∃ d s, settlement_of (env uri) = Some (d, s) ∧
         r = Return (slot_value s) ∧
         to_boolean (slot_value s) = true ∧
         clock p + d ≤ clock p' ∧
         own (length (frames p)) [] (slot_value s, [slot_value s]) p'.
Proof.
  intros Hwf. rewrite main_eq.
  destruct (poll _ _ _) as [q|] eqn:E; [|done]. intros [= <- <-].
  pose proof (start_own env uri p Hwf) as Hown. unfold own_tasks in Hown.
  destruct (start_shape env uri p) as (Ec & _).
  destruct (settlement_of (env uri)) as [[d s]|] eqn:Hs.
  - destruct (poll_pending_settled _ _ _ _ _ _ _ Hown E) as (Hown' & Hc & Hv).
    exists d, s. split_and!; try done.
    by destruct Hown' as (_ & _ & [= -> _]).
  - by rewrite (poll_idle_falsy _ _ _ _ _ Hown eq_refl) in E.
Qed.

(** A load that never settles, or settles with a falsy slot value, keeps the
    caller in the loop whatever the bound. *)
Lemma main_diverges fuel env uri p :
  wf p →
  match settlement_of (env uri) with
  | Some (_, s) => to_boolean (slot_value s) = false
  | None => True
  end →
  main fuel env uri p = None.
Proof.
  intros Hwf Hs. destruct (main fuel env uri p) as [[r p']|] eqn:E; [|done].
  destruct (main_returned_settled _ _ _ _ _ _ Hwf E) as (d & s & Hs' & _ & Hv & _).
  rewrite Hs' in Hs. congruence.
Qed.

(** ** What a call yields depends on its own load alone *)






(** Earlier activations are out of reach of a later call. *)
Lemma filter_schedule_other {P : task → Prop} `{!∀ x, Decision (P x)} t q :
  ¬ P t → filter P (schedule t q) = filter P q.
Proof.
  intros Ht. induction q as [|u q IH]; simpl.
  - by rewrite filter_cons, decide_False.
  - case_decide.
    + rewrite !filter_cons, IH. done.
    + by rewrite (filter_cons _ t), decide_False.
Qed.




(** ** The failure path *)

(** C1, as stated, fails on the module [badMod] that rejects after 5 ms with
    the error ["not found"]: the call returns the error as a value, and for
    no bound on the loop does it raise it. *)
Lemma C1_badMod_returned_not_raised :
  result (main 2 sample_env "badMod" init) = Some (Return (VString "not found")) ∧
  ¬ ∃ fuel p', main fuel sample_env "badMod" init = Some (Throw (VString "not found"), p').
Proof.
  split; [vm_compute; reflexivity|].
  intros (fuel & p' & H).
  destruct (main_returned_settled _ _ _ _ _ _ wf_init H) as (d & s & _ & Hr & _).
  discriminate Hr.
Qed.

(** C1, amended: when the load of the identifier fails with a truthy error
    [E], the call writes [E] to the error console and returns [E] itself,
    unchanged, as its ordinary result; whenever the call returns, this is
    what it returns, so nothing is raised. *)
Theorem C1_rejection_is_logged_and_returned env uri p d E :
  wf p → env uri = Rejects d E → to_boolean E = true →
  (∃ p', main (d / poll_interval + 2) env uri p = Some (Return E, p') ∧
         EvConsoleError E ∈ trace p') ∧
  (∀ fuel r p', main fuel env uri p = Some (r, p') → r = Return E).
Proof.
  intros Hwf Henv HE. split.
  - destruct (main_settles_truthy env uri p d (Rejected E) Hwf) as (p' & Hm & _ & _ & Hev);
      [by rewrite Henv | done |].
    exists p'. split; [done|]. apply Hev. unfold emits; simpl.
    rewrite !elem_of_cons. tauto.
  - intros fuel r p' H.
    destruct (main_returned_settled _ _ _ _ _ _ Hwf H) as (d' & s & Hs & -> & _).
    rewrite Henv in Hs. by injection Hs as _ <-.
Qed.

Lemma C1_rejection_is_logged_and_returned_witness :
  (∃ p', main 2 sample_env "badMod" init = Some (Return (VString "not found"), p') ∧
         EvConsoleError (VString "not found") ∈ trace p') ∧
  (∀ fuel r p', main fuel sample_env "badMod" init = Some (r, p') →
                r = Return (VString "not found")).
Proof.
  apply (C1_rejection_is_logged_and_returned sample_env "badMod" init 5 (VString "not found")).
  - split; constructor.
  - reflexivity.
  - reflexivity.
Defined.



(** A rejection with a falsy reason leaves the caller in the loop. *)
Example quietFail_keeps_polling fuel : main fuel sample_env "quietFail" init = None.
Proof. apply main_diverges; [apply wf_init | reflexivity]. Qed.

(** ** The success path *)

(** A load that succeeds with a truthy "default" member [V]: the call returns
    exactly [V], and not before the load has settled. *)
Corollary main_returns_truthy_default env uri p d ns V :
  wf p → env uri = Resolves d ns → ns !! "default" = Some V →
  to_boolean V = true →
  ∃ p', main (d / poll_interval + 2) env uri p = Some (Return V, p') ∧
        clock p + d ≤ clock p'.
Proof.
  intros Hwf Henv Hns HV.
  destruct (main_settles_truthy env uri p d (Fulfilled (VObject ns)) Hwf)
    as (p' & Hm & Hc & _); [by rewrite Henv | by simpl; rewrite Hns |].
  exists p'. simpl in Hm. rewrite Hns in Hm. done.
Qed.

(** C2, at the failing input: the module [zeroMod] resolves after 10 ms with
    "default" member [0]. After one turn of the loop the binding has been
    written, with [0]; the loop nevertheless never exits, whatever the bound,
    and the caller sees what it sees of a load that never settles. *)
Theorem C2_zero_default_keeps_polling :
  (let p1 := sleep poll_interval (start sample_env "zeroMod" init).2 in
   writes 0 (trace p1) = [VNumber 0] ∧ read 0 p1 = VNumber 0) ∧
  (∀ fuel, main fuel sample_env "zeroMod" init = None) ∧
  (∀ fuel, result (main fuel sample_env "zeroMod" init) =
           result (main fuel sample_env "missing" init)).
Proof.
  split_and!; [vm_compute; split; reflexivity | |].
  - intros fuel. apply main_diverges; [apply wf_init | reflexivity].
  - intros fuel. unfold result.
    rewrite (main_diverges fuel sample_env "zeroMod" init wf_init eq_refl).
    by rewrite (main_diverges fuel sample_env "missing" init wf_init I).
Qed.

(** C3, at the failing input: the module [emptyMod] resolves after 10 ms with
    the empty string as its "default" member; the call does not return it,
    whatever the bound on the loop. The same holds for [namedOnly], a module
    without a "default" member. *)
Theorem C3_empty_default_keeps_polling :
  (∀ fuel, main fuel sample_env "emptyMod" init = None) ∧
  (∀ fuel, main fuel sample_env "namedOnly" init = None).
Proof.
  split; intros fuel; apply main_diverges; try apply wf_init; reflexivity.
Qed.



(** ** Reaching the settlement *)

Lemma loop_reaches_settled f T s w n : ∀ p,
  own f [Task T (Settle f s)] (VUndefined, w) p →
  T ≤ clock p + poll_interval * S n →
  ∃ k p', nsteps (loop_step f) (S k) p p' ∧
          own f [] (slot_value s, w ++ [slot_value s]) p' ∧
          T ≤ clock p'.
Proof.
  induction n as [|n IH]; intros p Hown HT;
    assert (Hr : to_boolean (read f p) = false)
      by (by rewrite (own_read _ _ _ _ _ Hown)).
  - exists 0, (sleep poll_interval p). split_and!.
    + by apply nsteps_once.
    + apply (sleep_own_deliver _ _ _ _ _ _ _ Hown). lia.
    + rewrite sleep_clock. lia.
  - destruct (decide (T ≤ clock p + poll_interval)) as [Hnow|Hlater].
    + exists 0, (sleep poll_interval p). split_and!.
      * by apply nsteps_once.
      * by apply (sleep_own_deliver _ _ _ _ _ _ _ Hown).
      * rewrite sleep_clock. lia.
    + destruct (IH (sleep poll_interval p)) as (k & p' & Hrun & Hown' & Hc).
      * apply sleep_own_wait; [done|simpl; lia].
      * rewrite sleep_clock. unfold poll_interval in *. lia.
      * exists (S k), p'. split_and!; [|done..].
        eapply nsteps_l; [|done]. by constructor.
Qed.

(** ** Loads that keep the caller waiting *)

(** C6: if the load never settles, the loop never exits and the call never
    returns: no bound on the number of turns is enough, and the loop can
    always take one more turn with the binding still [undefined]. *)
Theorem C6_never_settling_load_never_returns env uri p :
  wf p → env uri = Never →
  (∀ fuel, main fuel env uri p = None) ∧
  (∀ n, ∃ p1, nsteps (loop_step (length (frames p))) n (start env uri p).2 p1 ∧
              read (length (frames p)) p1 = VUndefined).
Proof.
  intros Hwf Henv. split.
  - intros fuel. apply main_diverges; [done|]. by rewrite Henv.
  - intros n. pose proof (start_own env uri p Hwf) as Hown.
    unfold own_tasks in Hown. rewrite Henv in Hown. simpl in Hown.
    destruct (loop_runs_forever _ _ _ _ Hown eq_refl n) as (p1 & Hrun & Hown1).
    exists p1. split; [done|]. by apply (own_read _ _ _ _ _ Hown1).
Qed.

Lemma C6_never_settling_load_never_returns_witness :
  (∀ fuel, main fuel sample_env "missing" init = None) ∧
  (∀ n, ∃ p1, nsteps (loop_step 0) n (start sample_env "missing" init).2 p1 ∧
              read 0 p1 = VUndefined).
Proof.
  apply (C6_never_settling_load_never_returns sample_env "missing" init).
  - split; constructor.
  - reflexivity.
Defined.

(** C10: if the load succeeds but the "default" member of its namespace is
    missing or falsy, the loop reaches a state in which the load has settled
    and the binding holds that falsy value, and from there it goes on turning
    for ever: the call never returns. *)
Theorem C10_falsy_default_never_returns env uri p d ns :
  wf p → env uri = Resolves d ns →
  to_boolean (default VUndefined (ns !! "default")) = false →
  (∀ fuel, main fuel env uri p = None) ∧
  ∃ n p1, nsteps (loop_step (length (frames p))) n (start env uri p).2 p1 ∧
          clock p + d ≤ clock p1 ∧
          writes (length (frames p)) (trace p1) = [default VUndefined (ns !! "default")] ∧
          ∀ m, ∃ p2, nsteps (loop_step (length (frames p))) m p1 p2 ∧
                     read (length (frames p)) p2 = default VUndefined (ns !! "default").
Proof.
  intros Hwf Henv Hv. split.
  - intros fuel. apply main_diverges; [done|]. by rewrite Henv.
  - pose proof (start_own env uri p Hwf) as Hown.
    unfold own_tasks in Hown. rewrite Henv in Hown.
    destruct (start_shape env uri p) as (Ec & _).
    destruct (loop_reaches_settled _ _ _ _ (d / poll_interval) _ Hown)
      as (k & p1 & Hrun & Hown1 & Hc).
    { rewrite Ec. pose proof (Nat.div_mod_eq d poll_interval) as Hd.
      pose proof (Nat.mod_upper_bound d poll_interval ltac:(done)) as Hm.
      unfold poll_interval in *. lia. }
    exists (S k), p1. split_and!; [done..| |].
    + by apply (own_writes _ _ _ _ _ Hown1).
    + intros m. destruct (loop_runs_forever _ _ _ _ Hown1 Hv m) as (p2 & Hrun2 & Hown2).
      exists p2. split; [done|]. by apply (own_read _ _ _ _ _ Hown2).
Qed.

Lemma C10_falsy_default_never_returns_witness :
  (∀ fuel, main fuel sample_env "namedOnly" init = None) ∧
  ∃ n p1, nsteps (loop_step 0) n (start sample_env "namedOnly" init).2 p1 ∧
          0 + 10 ≤ clock p1 ∧
          writes 0 (trace p1) =
            [default VUndefined (({[ "helper" := VNumber 7 ]} : gmap string value) !! "default")] ∧
          ∀ m, ∃ p2, nsteps (loop_step 0) m p1 p2 ∧
                     read 0 p2 =
                       default VUndefined (({[ "helper" := VNumber 7 ]} : gmap string value) !! "default").
Proof.
  apply (C10_falsy_default_never_returns sample_env "namedOnly" init 10
           {[ "helper" := VNumber 7 ]}).
  - split; constructor.
  - reflexivity.
  - vm_compute. reflexivity.
Defined.

(** ** Calls in sequence *)



(** ** Other work of the process *)

(** C8: a completion of unrelated asynchronous work that is queued when the
    call starts runs during the wait: after any number of turns of the loop,
    everything that fell due in the time slept has run; in particular work
    that falls due no later than the call's own load has run by the time the
    call returns. *)
Theorem C8_other_work_progresses_during_wait env uri p T id :
  wf p → Task T (Foreign id) ∈ queue p →
  (∀ n p1, nsteps (loop_step (length (frames p))) (S n) (start env uri p).2 p1 →
           T ≤ clock p + poll_interval * S n →
           EvForeign id ∈ trace p1) ∧
  (∀ fuel d s r p', settlement_of (env uri) = Some (d, s) → T ≤ clock p + d →
           main fuel env uri p = Some (r, p') →
           EvForeign id ∈ trace p').
Proof.
  intros Hwf Hin. destruct (start_shape env uri p) as (Ec & _ & _ & Eq).
  assert (Hq : Task T (Foreign id) ∈ queue (start env uri p).2) by (apply Eq; by right).
  assert (Hem : EvForeign id ∈ emits (Task T (Foreign id)))
    by (by apply list_elem_of_singleton).
  split.
  - intros n p1 Hrun HT.
    apply (served_due (Task T (Foreign id))); [|simpl|done].
    + by eapply nsteps_loop_served.
    + rewrite (nsteps_loop_clock _ _ _ _ Hrun), Ec. done.
  - intros fuel d s r p' Hs HT H.
    destruct (main_returned_settled _ _ _ _ _ _ Hwf H) as (d' & s' & Hs' & _ & _ & Hc & _).
    rewrite Hs in Hs'. injection Hs' as <- <-.
    apply (served_due (Task T (Foreign id))); [|simpl; lia|done].
    rewrite main_eq in H. destruct (poll _ _ _) as [q|] eqn:E; [|done].
    injection H as _ <-.
    eapply poll_serves; [done| |done]. by rewrite start_read.
Qed.

Lemma C8_other_work_progresses_during_wait_witness :
  (∃ p', main 4 sample_env "slowMod" busy = Some (Return (VString "slow"), p') ∧
         trace p' = [EvForeign 7; EvAssign 0 (VString "slow")]) ∧
  (∀ n p1, nsteps (loop_step (length (frames busy))) (S n) (start sample_env "slowMod" busy).2 p1 →
           30 ≤ clock busy + poll_interval * S n →
           EvForeign 7 ∈ trace p1) ∧
  (∀ fuel d s r p', settlement_of (sample_env "slowMod") = Some (d, s) →
           30 ≤ clock busy + d →
           main fuel sample_env "slowMod" busy = Some (r, p') →
           EvForeign 7 ∈ trace p').
Proof.
  split; [eexists; vm_compute; split; reflexivity|].
  apply (C8_other_work_progresses_during_wait sample_env "slowMod" busy 30 7).
  - split; repeat constructor. intros g s H. discriminate H.
  - by apply list_elem_of_singleton.
Defined.

(** * Further properties of [main] *)

(** X2: the call never returns a falsy value: whatever it returns is a
    normal completion with a truthy value, so [undefined], [null], [false],
    [0], [NaN] and the empty string never reach the caller. *)
Theorem main_returns_only_truthy fuel env uri p r p' :
  wf p → main fuel env uri p = Some (r, p') →
  ∃ v, r = Return v ∧ to_boolean v = true.
Proof.
  intros Hwf H.
  destruct (main_returned_settled _ _ _ _ _ _ Hwf H) as (d & s & _ & -> & Hv & _).
  by exists (slot_value s).
Qed.

Lemma main_returns_only_truthy_witness :
  ∃ p', main 2 sample_env "badMod" init = Some (Return (VString "not found"), p') ∧
  ∃ v, Return (VString "not found") = Return v ∧ to_boolean v = true.
Proof.
  eexists. split; [vm_compute; reflexivity|].
  eapply (main_returns_only_truthy 2 sample_env "badMod" init).
  - split; constructor.
  - vm_compute. reflexivity.
Defined.

(** * Default exports that are thenables *)

(** ** Running completions that can queue completions *)

Lemma adopt_run_task_shape th t p :
  clock (Adopt.run_task th t p).2 = clock p ∧
  queue (Adopt.run_task th t p).2 = queue p ∧
  length (frames (Adopt.run_task th t p).2) = length (frames p).
Proof.
  unfold Adopt.run_task, Adopt.settle, Adopt.promise_then, Adopt.on_fulfilled,
    Adopt.resolve, Adopt.promise_catch.
  destruct (act t) as [g [res|e]|id]; simpl; rewrite ?length_insert; try done.
  destruct (get_prop res "default") as [v|e]; simpl; rewrite ?length_insert; try done.
  destruct (Adopt.fate_of th v) as [| |[|d] e|]; simpl; rewrite ?length_insert; done.
Qed.

(** A completion changes the view of activation [f] as [step_view] says,
    unless it belongs to [f] and rests on a thenable that rejects; what it
    queues belongs to its own activation. *)
Lemma adopt_run_task_view th f t p :
  f < length (frames p) →
  (targets f t → Adopt.calm th t) →
  view f (Adopt.run_task th t p).2 = step_view f (view f p) t ∧
  (∀ u, (Adopt.run_task th t p).1 = Some u → ¬ targets f u).
Proof.
  intros Hf Hcalm.
  unfold Adopt.run_task, step_view, Adopt.calm, targets in *.
  destruct (act t) as [g [res|e]|id]; simpl.
  - unfold Adopt.settle, Adopt.promise_then, Adopt.on_fulfilled, Adopt.resolve.
    destruct (get_prop res "default") as [v|e] eqn:Hg; simpl.
    + destruct (Adopt.fate_of th v) as [| |[|d] e|] eqn:Hfate; simpl.
      * rewrite view_assign by done. by split.
      * rewrite view_assign by done. by split.
      * destruct (decide (g = f)) as [->|Hne];
          [exfalso; by apply (Hcalm eq_refl 0 e)|].
        split; [|done].
        rewrite view_console_error, view_assign
          by (unfold assign; simpl; by rewrite length_insert).
        rewrite decide_False by done. rewrite view_assign by done.
        by rewrite decide_False.
      * destruct (decide (g = f)) as [->|Hne];
          [exfalso; by apply (Hcalm eq_refl (S d) e)|].
        split; [rewrite view_assign by done; by rewrite decide_False|].
        intros u [= <-]. done.
      * rewrite view_assign by done. by split.
    + by rewrite view_console_error, view_assign.
  - by rewrite view_console_error, view_assign.
  - split; [apply view_log_foreign | done].
Qed.

Lemma filter_targets_none f cs :
  Forall (λ c, ¬ targets f c) cs → filter (targets f) cs = [].
Proof.
  induction 1 as [|c cs Hc _ IH]; [done|].
  by rewrite filter_cons, decide_False.
Qed.

Lemma run_tasks_foreign_to f cs p :
  f < length (frames p) → Forall (λ c, ¬ targets f c) cs →
  view f (run_tasks cs p) = view f p.
Proof.
  intros Hf Hcs. rewrite run_tasks_view, foldl_step_view_filter by done.
  by rewrite filter_targets_none.
Qed.

Lemma Forall_schedule (P : task → Prop) u q :
  P u → Forall P q → Forall P (schedule u q).
Proof.
  intros Hu Hq. apply Forall_forall. intros t [->|Ht]%elem_of_schedule; [done|].
  revert t Ht. by apply Forall_forall.
Qed.

Lemma adopt_drain_view th f now ts : ∀ cs p,
  f < length (frames p) →
  Forall (λ t, targets f t → Adopt.calm th t) ts →
  Forall (λ c, ¬ targets f c) cs →
  view f (Adopt.drain th now ts cs p) = foldl (step_view f) (view f p) ts ∧
  filter (targets f) (queue (Adopt.drain th now ts cs p)) = filter (targets f) (queue p) ∧
  length (frames (Adopt.drain th now ts cs p)) = length (frames p) ∧
  clock (Adopt.drain th now ts cs p) = clock p.
Proof.
  induction ts as [|t ts IH]; intros cs p Hf Hts Hcs; simpl.
  - destruct (run_tasks_shape cs p) as (-> & -> & -> & _).
    by rewrite run_tasks_foreign_to.
  - apply Forall_cons in Hts as [Ht Hts].
    set (p0 := run_tasks (filter (λ c, due c < due t) cs) p).
    assert (Hf0 : f < length (frames p0))
      by (unfold p0; by destruct (run_tasks_shape (filter (λ c, due c < due t) cs) p)
                          as (_ & _ & -> & _)).
    assert (Hv0 : view f p0 = view f p)
      by (apply run_tasks_foreign_to; [done | by apply Forall_filter_weak]).
    assert (Hq0 : queue p0 = queue p ∧ length (frames p0) = length (frames p) ∧
                  clock p0 = clock p)
      by (unfold p0; by destruct (run_tasks_shape (filter (λ c, due c < due t) cs) p)
                          as (-> & -> & -> & _)).
    destruct Hq0 as (Hq0 & Hl0 & Hc0).
    destruct (adopt_run_task_view th f t p0 Hf0 Ht) as [Hv1 Hspawn].
    destruct (adopt_run_task_shape th t p0) as (Hc1 & Hq1 & Hl1).
    assert (Hrest : Forall (λ c, ¬ targets f c) (filter (λ c, due t ≤ due c) cs))
      by (by apply Forall_filter_weak).
    destruct (Adopt.run_task th t p0) as [[u|] p1]; simpl in *.
    + specialize (Hspawn u eq_refl). case_decide.
      * destruct (IH (schedule u (filter (λ c, due t ≤ due c) cs)) p1)
          as (-> & -> & -> & ->); [lia | done | by apply Forall_schedule |].
        by rewrite Hv1, Hv0, Hq1, Hq0, Hl1, Hl0, Hc1, Hc0.
      * destruct (IH (filter (λ c, due t ≤ due c) cs)
                    (Process (clock p1) (frames p1) (schedule u (queue p1)) (trace p1)))
          as (-> & -> & -> & ->); [simpl; lia | done | done |].
        simpl. rewrite filter_schedule_other by done.
        change (view f (Process (clock p1) (frames p1) (schedule u (queue p1)) (trace p1)))
          with (view f p1).
        by rewrite Hv1, Hv0, Hq1, Hq0, Hl1, Hl0, Hc1, Hc0.
    + destruct (IH (filter (λ c, due t ≤ due c) cs) p1)
        as (-> & -> & -> & ->); [lia | done | done |].
      by rewrite Hv1, Hv0, Hq1, Hq0, Hl1, Hl0, Hc1, Hc0.
Qed.

Lemma adopt_drain_shape th now ts : ∀ cs p,
  clock (Adopt.drain th now ts cs p) = clock p ∧
  length (frames (Adopt.drain th now ts cs p)) = length (frames p).
Proof.
  induction ts as [|t ts IH]; intros cs p; simpl.
  - by destruct (run_tasks_shape cs p) as (-> & _ & -> & _).
  - set (p0 := run_tasks (filter (λ c, due c < due t) cs) p).
    assert (Hp0 : clock p0 = clock p ∧ length (frames p0) = length (frames p))
      by (unfold p0; by destruct (run_tasks_shape (filter (λ c, due c < due t) cs) p)
                          as (-> & _ & -> & _)).
    destruct Hp0 as [Hc0 Hl0].
    destruct (adopt_run_task_shape th t p0) as (Hc1 & _ & Hl1).
    destruct (Adopt.run_task th t p0) as [[u|] p1]; simpl in *.
    + case_decide.
      * destruct (IH (schedule u (filter (λ c, due t ≤ due c) cs)) p1) as [-> ->].
        by rewrite Hc1, Hc0, Hl1, Hl0.
      * destruct (IH (filter (λ c, due t ≤ due c) cs)
                    (Process (clock p1) (frames p1) (schedule u (queue p1)) (trace p1)))
          as [-> ->].
        simpl. by rewrite Hc1, Hc0, Hl1, Hl0.
    + destruct (IH (filter (λ c, due t ≤ due c) cs) p1) as [-> ->].
      by rewrite Hc1, Hc0, Hl1, Hl0.
Qed.

(** ** One turn of the event loop *)

Lemma adopt_sleep_clock th ms p : clock (Adopt.sleep th ms p) = clock p + ms.
Proof. unfold Adopt.sleep. by destruct (adopt_drain_shape th (clock p + ms)
  (filter (λ t, due t ≤ clock p + ms) (queue p)) []
  (Process (clock p + ms) (frames p) (filter (λ t, clock p + ms < due t) (queue p)) (trace p)))
  as [-> _]. Qed.

Lemma adopt_sleep_frames_length th ms p :
  length (frames (Adopt.sleep th ms p)) = length (frames p).
Proof. unfold Adopt.sleep. by destruct (adopt_drain_shape th (clock p + ms)
  (filter (λ t, due t ≤ clock p + ms) (queue p)) []
  (Process (clock p + ms) (frames p) (filter (λ t, clock p + ms < due t) (queue p)) (trace p)))
  as [_ ->]. Qed.

Lemma adopt_sleep_view th f ms p :
  f < length (frames p) → calm_within th f ms p →
  view f (Adopt.sleep th ms p) =
    foldl (step_view f) (view f p)
          (filter (λ t, due t ≤ clock p + ms) (filter (targets f) (queue p))) ∧
  filter (targets f) (queue (Adopt.sleep th ms p)) =
    filter (λ t, clock p + ms < due t) (filter (targets f) (queue p)).
Proof.
  intros Hf Hcalm. unfold Adopt.sleep.
  destruct (adopt_drain_view th f (clock p + ms)
              (filter (λ t, due t ≤ clock p + ms) (queue p)) []
              (Process (clock p + ms) (frames p)
                 (filter (λ t, clock p + ms < due t) (queue p)) (trace p)))
    as (-> & -> & _); [done| |constructor|].
  - apply Forall_forall. intros t [Hdue Ht]%list_elem_of_filter Htar.
    unfold calm_within in Hcalm. rewrite Forall_forall in Hcalm.
    apply Hcalm; [|done]. by apply list_elem_of_filter.
  - simpl. split; [|apply filter_comm].
    rewrite foldl_step_view_filter. by rewrite filter_comm.
Qed.

Lemma adopt_sleep_own_idle th f x ms p :
  own f [] x p → own f [] x (Adopt.sleep th ms p).
Proof.
  intros (Hf & Hq & Hv).
  destruct (adopt_sleep_view th f ms p Hf) as [Hview Hqueue].
  { unfold calm_within. rewrite Hq. constructor. }
  split_and!.
  - by rewrite adopt_sleep_frames_length.
  - by rewrite Hqueue, Hq.
  - by rewrite Hview, Hq, Hv.
Qed.

Lemma adopt_sleep_own_wait th f t x ms p :
  own f [t] x p → clock p + ms < due t → own f [t] x (Adopt.sleep th ms p).
Proof.
  intros (Hf & Hq & Hv) Hlate.
  destruct (adopt_sleep_view th f ms p Hf) as [Hview Hqueue].
  { unfold calm_within. rewrite Hq. repeat constructor. lia. }
  split_and!.
  - by rewrite adopt_sleep_frames_length.
  - rewrite Hqueue, Hq, filter_cons, filter_nil. by rewrite decide_True.
  - rewrite Hview, Hq, Hv. rewrite filter_cons, filter_nil.
    rewrite decide_False by lia. done.
Qed.

Lemma adopt_sleep_own_deliver th f T s v w ms p :
  own f [Task T (Settle f s)] (v, w) p →
  Adopt.calm th (Task T (Settle f s)) →
  T ≤ clock p + ms →
  own f [] (slot_value s, w ++ [slot_value s]) (Adopt.sleep th ms p).
Proof.
  intros (Hf & Hq & Hv) Hcalm Hdue.
  destruct (adopt_sleep_view th f ms p Hf) as [Hview Hqueue].
  { unfold calm_within. rewrite Hq. by repeat constructor. }
  split_and!.
  - by rewrite adopt_sleep_frames_length.
  - rewrite Hqueue, Hq, filter_cons, filter_nil.
    rewrite decide_False; [done | simpl; lia].
  - rewrite Hview, Hq, Hv. rewrite filter_cons, filter_nil.
    rewrite decide_True by done.
    simpl. unfold step_view; simpl. by rewrite decide_True.
Qed.

(** ** The life of the slot *)

Lemma default_stays_calm th o f c d s :
  Adopt.default_stays th o → settlement_of o = Some (d, s) →
  Adopt.calm th (Task c (Settle f s)).
Proof.
  unfold Adopt.default_stays, Adopt.calm. destruct o as [d' ns|d' e|]; simpl; [| |done].
  - intros Hstay [= _ <-]. simpl. done.
  - intros _ [= _ <-]. done.
Qed.

Lemma adopt_phase_sleep th o f c ms p :
  Adopt.default_stays th o → phase o f c p → phase o f c (Adopt.sleep th ms p).
Proof.
  intros Hstay [Hown|(d & s & Hs & Hown)].
  - unfold phase, own_tasks in *. destruct (settlement_of o) as [[d s]|] eqn:Hs.
    + destruct (decide (c + d ≤ clock p + ms)) as [Hnow|Hlater].
      * right. exists d, s. split; [done|].
        apply (adopt_sleep_own_deliver _ _ _ _ _ _ _ _ Hown); [|done].
        by eapply default_stays_calm.
      * left. apply adopt_sleep_own_wait; [done|simpl; lia].
    + left. by apply adopt_sleep_own_idle.
  - right. exists d, s. split; [done|]. by apply adopt_sleep_own_idle.
Qed.

Lemma adopt_turns_own_idle th f x ds : ∀ p,
  own f [] x p → own f [] x (foldl (λ q ms, Adopt.sleep th ms q) p ds).
Proof.
  induction ds as [|ms ds IH]; intros p Hown; [done|].
  simpl. by apply IH, adopt_sleep_own_idle.
Qed.

Lemma adopt_loop_invariant th (I : process → Prop) f :
  (∀ p, I p → I (Adopt.sleep th poll_interval p)) →
  ∀ p p', I p → rtc (Adopt.loop_step th f) p p' → I p'.
Proof.
  intros Hstep p p' HI Hrun. induction Hrun as [|p q r Hpq _ IH]; [done|].
  apply IH. destruct Hpq. by apply Hstep.
Qed.

(** C5, as stated, fails on a module whose "default" member is a promise
    that rejects. For [rejectedDefault], whose promise has already rejected
    with ["boom"], the first turn of the loop sees the reaction of [then]
    write the promise to [mod] and the reaction of [catch] overwrite it with
    ["boom"]: two writes. For [rejectingDefault], whose promise rejects
    150 ms later, the call returns the promise, and a later turn of the event
    loop overwrites [mod] with ["boom"]. *)
Lemma C5_rejecting_default_written_twice :
  (let p0 := (start Adopt.thenable_env "rejectedDefault" init).2 in
   let p1 := Adopt.sleep Adopt.sample_thenables poll_interval p0 in
   rtc (Adopt.loop_step Adopt.sample_thenables 0) p0 p1 ∧
   writes 0 (trace p1) = [Adopt.rejected_promise; VString "boom"] ∧
   ¬ length (writes 0 (trace p1)) ≤ 1) ∧
  (∃ p', Adopt.main Adopt.sample_thenables 2 Adopt.thenable_env "rejectingDefault" init =
           Some (Return Adopt.rejecting_promise, p') ∧
         writes 0 (trace p') = [Adopt.rejecting_promise] ∧
         read 0 (Adopt.sleep Adopt.sample_thenables poll_interval p') = VString "boom").
Proof.
  split.
  - cbv zeta. split_and!.
    + apply rtc_once. constructor. reflexivity.
    + vm_compute. reflexivity.
    + intros H. vm_compute in H. lia.
  - eexists. split; [vm_compute; reflexivity|]. split; vm_compute; reflexivity.
Qed.

(** C5, amended: unless the "default" member the load resolves to is a
    thenable that rejects, in every state the loop of a call passes through
    the binding [mod] of the call has been written at most once; and once it
    has been written, no further turn of the event loop, however many and
    however long, changes the binding or adds a write. *)
Theorem C5_slot_written_once_unless_default_rejects th env uri p p1 :
  wf p →
  Adopt.default_stays th (env uri) →
  rtc (Adopt.loop_step th (length (frames p))) (start env uri p).2 p1 →
  length (writes (length (frames p)) (trace p1)) ≤ 1 ∧
  (writes (length (frames p)) (trace p1) ≠ [] →
   ∀ ds, view (length (frames p)) (foldl (λ q ms, Adopt.sleep th ms q) p1 ds) =
         view (length (frames p)) p1).
Proof.
  intros Hwf Hstay Hrun.
  assert (Hph : phase (env uri) (length (frames p)) (clock p) p1).
  { eapply (adopt_loop_invariant th _ _
              (λ q, adopt_phase_sleep th _ _ _ poll_interval q Hstay)); [|done].
    left. by apply start_own. }
  destruct Hph as [Hown|(d & s & _ & Hown)];
    rewrite (own_writes _ _ _ _ _ Hown); simpl.
  - split; [lia|done].
  - split; [lia|]. intros _ ds.
    destruct (adopt_turns_own_idle th _ _ ds _ Hown) as (_ & _ & ->).
    by destruct Hown as (_ & _ & ->).
Qed.

Lemma C5_slot_written_once_unless_default_rejects_witness :
  let p1 := Adopt.sleep Adopt.sample_thenables poll_interval
              (start Adopt.thenable_env "fastMod" init).2 in
  writes 0 (trace p1) = [VNumber 42] ∧
  (length (writes 0 (trace p1)) ≤ 1 ∧
   (writes 0 (trace p1) ≠ [] →
    ∀ ds, view 0 (foldl (λ q ms, Adopt.sleep Adopt.sample_thenables ms q) p1 ds) =
          view 0 p1)).
Proof.
  split; [vm_compute; reflexivity|].
  apply (C5_slot_written_once_unless_default_rejects
           Adopt.sample_thenables Adopt.thenable_env "fastMod" init).
  - split; constructor.
  - intros d e H. vm_compute in H. discriminate H.
  - apply rtc_once. constructor. reflexivity.
Defined.

(** ** The two embeddings agree where no thenable rejects *)

Lemma adopt_run_task_plain th t p :
  (∀ v d e, th v ≠ Adopt.RejectsAfter d e) →
  Adopt.run_task th t p = (None, run_task t p).
Proof.
  intros Hth.
  assert (Hfate : ∀ v d e, Adopt.fate_of th v ≠ Adopt.RejectsAfter d e)
    by (intros [] d e; simpl; (done || apply Hth)).
  unfold Adopt.run_task, run_task, Adopt.settle, settle, Adopt.promise_then,
    promise_then, Adopt.on_fulfilled, on_fulfilled, Adopt.resolve.
  destruct (act t) as [g [res|e]|id]; simpl; [|done..].
  destruct (get_prop res "default") as [v|e]; simpl; [|done].
  destruct (Adopt.fate_of th v) as [| |d e|] eqn:Hv; simpl; try done.
  by destruct (Hfate v d e).
Qed.

Lemma adopt_drain_plain th now ts : ∀ p,
  (∀ v d e, th v ≠ Adopt.RejectsAfter d e) →
  Adopt.drain th now ts [] p = run_tasks ts p.
Proof.
  induction ts as [|t ts IH]; intros p Hth; simpl; [done|].
  rewrite adopt_run_task_plain by done. by apply IH.
Qed.

Lemma adopt_sleep_plain th ms p :
  (∀ v d e, th v ≠ Adopt.RejectsAfter d e) →
  Adopt.sleep th ms p = sleep ms p.
Proof. intros Hth. unfold Adopt.sleep, sleep. by apply adopt_drain_plain. Qed.

(** In a world where no thenable rejects, the call with adoption is the call
    as embedded first. *)
Lemma adopt_main_plain th fuel env uri p :
  (∀ v d e, th v ≠ Adopt.RejectsAfter d e) →
  Adopt.main th fuel env uri p = main fuel env uri p.
Proof.
  intros Hth. unfold Adopt.main, main. destruct (start env uri p) as [f p2].
  assert (Hpoll : ∀ n q, Adopt.poll th n f q = poll n f q).
  { induction n as [|n IH]; intros q; simpl; [done|].
    destruct (to_boolean (read f q)); [done|].
    by rewrite adopt_sleep_plain, IH. }
  by rewrite Hpoll.
Qed.
